(** * A shallow embedding of the playback core of dastarruer/audio-player

    Sources: src/src/app/audio_handler.rs (AudioHandler),
    src/src/app/ui/progress_bar.rs (ProgressBar::update, format_duration),
    src/src/app/ui/now_playing.rs (NowPlaying::new, parse_file and the extract functions). *)

From Stdlib Require Import NArith String Ascii List Bool Lia.
Import ListNotations.
Open Scope N_scope.

(** ** [std::time::Duration]

    A Rust [Duration] is a pair (secs : u64, nanos : u32 < 10^9); it is
    represented here by its total number of nanoseconds, an [N] no larger
    than [MAX]. *)
Module Duration.

Definition t := N.

Definition NANOS_PER_SEC : N := 1000000000.

(** [Duration::MAX] = u64::MAX seconds and 999_999_999 nanoseconds. *)
Definition MAX : t := 2 ^ 64 * NANOS_PER_SEC - 1.

Definition ZERO : t := 0.

Definition from_secs (s : N) : t := s * NANOS_PER_SEC.

Definition from_millis (ms : N) : t := ms * 1000000.

Definition as_secs (d : t) : N := d / NANOS_PER_SEC.

Definition as_millis (d : t) : N := d / 1000000.

(** [Duration::checked_add]: [None] on overflow of the seconds field. *)
Definition checked_add (a b : t) : option t :=
  if a + b <=? MAX then Some (a + b) else None.

(** [Duration::checked_sub]: [None] when the result would be negative. *)
Definition checked_sub (a b : t) : option t :=
  if b <=? a then Some (a - b) else None.

End Duration.

(** ** Panics

    Code that may panic returns an [outcome]: either a value or the panic
    message. *)
Inductive outcome (A : Type) : Type :=
| Ok (a : A)
| Panic (msg : string).
Arguments Ok {A} a.
Arguments Panic {A} msg.

Definition bind {A B : Type} (m : outcome A) (f : A -> outcome B) : outcome B :=
  match m with
  | Ok a => f a
  | Panic msg => Panic msg
  end.

Notation "x <- m ;; k" := (bind m (fun x => k))
  (at level 61, m at next level, right associativity).

(** [impl Add for Duration]: [checked_add(rhs).expect(...)]. *)
Definition duration_add (a b : Duration.t) : outcome Duration.t :=
  match Duration.checked_add a b with
  | Some r => Ok r
  | None => Panic "overflow when adding durations"
  end.

(** [Ord::clamp]: [assert!(min <= max)], then compare. *)
Definition duration_clamp (d lo hi : Duration.t) : outcome Duration.t :=
  if negb (lo <=? hi) then Panic "assertion failed: min <= max"
  else if d <? lo then Ok lo
  else if hi <? d then Ok hi
  else Ok d.

(** ** The message protocol ([enum Message] in src/src/app/mod.rs) *)
Inductive Message : Type :=
| Play
| Pause
| FastForward (d : Duration.t)
| Rewind (d : Duration.t).

(** ** The rodio [Sink]

    The sink's position and pause flag; whether [try_seek] to a given
    position succeeds is decided by the decoder behind the sink, given here
    as [sink_seek_ok]. A failed seek leaves the sink as it was. *)
Record Sink : Type := mkSink {
  sink_pos : Duration.t;
  sink_paused : bool;
  sink_seek_ok : Duration.t -> bool
}.

Definition sink_set_pos (s : Sink) (p : Duration.t) : Sink :=
  mkSink p (sink_paused s) (sink_seek_ok s).

Definition sink_set_paused (s : Sink) (b : bool) : Sink :=
  mkSink (sink_pos s) b (sink_seek_ok s).

(** Lines written to stdout / stderr. *)
Inductive LogLine : Type :=
| LogTarget (d : Duration.t)           (* println!("{:?}", target_pos) *)
| LogFastForwardErr                    (* "Unable to fast-forward: ..." *)
| LogRewindErr                         (* "Unable to rewind: ..." *)
| LogSendPosErr.                       (* "Unable to send position to progress bar: ..." *)

(** The primitive effects a thread performs, in order. *)
Inductive Event : Type :=
| ELock                                (* sink_ref.lock() *)
| EUnlock                              (* the guard is dropped *)
| ESleep (ms : N)                      (* thread::sleep *)
| EGetPos (d : Duration.t)             (* sink.get_pos() *)
| EPlay                                (* sink.play() *)
| EPause                               (* sink.pause() *)
| ESeek (target : Duration.t) (ok : bool)  (* sink.try_seek(target) *)
| ESend (d : Duration.t) (ok : bool)   (* audio_pos_sender.send(d) *)
| ELog (l : LogLine)
| ERecv (m : Message)                  (* the worker dequeued [m] *)
| EDropRx.                             (* the position consumer was dropped *)

(** The state the playback threads share: the [Arc<Mutex<Option<Sink>>>]
    slot, the position channel (its queue and whether its receiver is still
    alive) and the trace of effects. *)
Record World : Type := mkWorld {
  w_sink : option Sink;
  w_pos_chan : list Duration.t;
  w_rx_alive : bool;
  w_trace : list Event
}.

Definition emit (w : World) (e : Event) : World :=
  mkWorld (w_sink w) (w_pos_chan w) (w_rx_alive w) (w_trace w ++ [e]).

Definition put_sink (w : World) (s : Sink) : World :=
  mkWorld (Some s) (w_pos_chan w) (w_rx_alive w) (w_trace w).

(** [mpsc::Sender::send]: fails exactly when the receiver is gone. *)
Definition send_pos (w : World) (d : Duration.t) : World * bool :=
  if w_rx_alive w then
    (mkWorld (w_sink w) (w_pos_chan w ++ [d]) true (w_trace w ++ [ESend d true]), true)
  else (emit w (ESend d false), false).

(** [sink.get_pos()] *)
Definition get_pos (w : World) (s : Sink) : World * Duration.t :=
  (emit w (EGetPos (sink_pos s)), sink_pos s).

(** [sink.try_seek(target)]: [true] on [Ok]. *)
Definition try_seek (w : World) (s : Sink) (target : Duration.t) : World * bool :=
  if sink_seek_ok s target then
    (emit (put_sink w (sink_set_pos s target)) (ESeek target true), true)
  else (emit w (ESeek target false), false).

(** [AudioHandler::with_sink]: lock, [expect("Sink not initialized")], run
    the closure with the guard held, drop the guard. The closure receives
    the sink and the world with the lock taken. *)
Definition with_sink {R : Type} (w : World) (f : Sink -> World -> outcome (World * R))
  : outcome (World * R) :=
  let w := emit w ELock in
  match w_sink w with
  | None => Panic "Sink not initialized"
  | Some s =>
      r <- f s w ;;
      let '(w', v) := r in Ok (emit w' EUnlock, v)
  end.

(** [AudioHandler::fast_forward] *)
Definition fast_forward (w : World) (duration_secs : Duration.t) (s : Sink)
  : outcome (World * unit) :=
  let '(w, current_pos) := get_pos w s in
  target_pos <- duration_add current_pos duration_secs ;;
  let w := emit w (ELog (LogTarget target_pos)) in
  let '(w, ok) := try_seek w s target_pos in
  let w := if ok then w else emit w (ELog LogFastForwardErr) in
  let '(w, sent) := send_pos w target_pos in
  let w := if sent then w else emit w (ELog LogSendPosErr) in
  Ok (w, tt).

(** The rewind target: [current_pos.checked_sub(duration_secs).unwrap_or(Duration::ZERO)]. *)
Definition rewind_target (current_pos duration_secs : Duration.t) : Duration.t :=
  match Duration.checked_sub current_pos duration_secs with
  | Some r => r
  | None => Duration.ZERO
  end.

(** [AudioHandler::rewind] *)
Definition rewind (w : World) (duration_secs : Duration.t) (s : Sink)
  : outcome (World * unit) :=
  let '(w, current_pos) := get_pos w s in
  let target_pos := rewind_target current_pos duration_secs in
  let '(w, ok) := try_seek w s target_pos in
  let w := if ok then w else emit w (ELog LogRewindErr) in
  let '(w, sent) := send_pos w target_pos in
  let w := if sent then w else emit w (ELog LogSendPosErr) in
  Ok (w, tt).

(** [AudioHandler::handle_messages] *)
Definition handle_messages (m : Message) (w : World) : outcome (World * unit) :=
  match m with
  | Play => with_sink w (fun s w =>
      Ok (emit (put_sink w (sink_set_paused s false)) EPlay, tt))
  | Pause => with_sink w (fun s w =>
      Ok (emit (put_sink w (sink_set_paused s true)) EPause, tt))
  | FastForward d => with_sink w (fun s w => fast_forward w d s)
  | Rewind d => with_sink w (fun s w => rewind w d s)
  end.

(** The seek calls in a trace, with their results. *)
Fixpoint seeks_of (tr : list Event) : list (Duration.t * bool) :=
  match tr with
  | [] => []
  | ESeek t ok :: tr' => (t, ok) :: seeks_of tr'
  | _ :: tr' => seeks_of tr'
  end.

Lemma seeks_of_app (a b : list Event) : seeks_of (a ++ b) = seeks_of a ++ seeks_of b.
Proof. induction a as [|e a IH]; [reflexivity|destruct e; simpl; rewrite ?IH; reflexivity]. Qed.

Lemma rewind_target_spec (p d : Duration.t) :
  rewind_target p d = if d <=? p then p - d else 0.
Proof. unfold rewind_target, Duration.checked_sub. destruct (d <=? p); reflexivity. Qed.

(** The whole effect of [handle_messages (Rewind d)] on an initialised slot. *)
Lemma handle_rewind_eq (s : Sink) (chan : list Duration.t) (alive : bool)
  (tr : list Event) (d : Duration.t) :
  let t := rewind_target (sink_pos s) d in
  let ok := sink_seek_ok s t in
  let s' := if ok then sink_set_pos s t else s in
  handle_messages (Rewind d) (mkWorld (Some s) chan alive tr) =
  Ok (mkWorld (Some s') (if alive then chan ++ [t] else chan) alive
        (tr ++ [ELock; EGetPos (sink_pos s); ESeek t ok]
            ++ (if ok then [] else [ELog LogRewindErr])
            ++ [ESend t alive]
            ++ (if alive then [] else [ELog LogSendPosErr])
            ++ [EUnlock]), tt).
Proof.
  cbv zeta. unfold handle_messages, with_sink, rewind, get_pos, try_seek, send_pos,
    emit, put_sink; simpl.
  destruct (sink_seek_ok s (rewind_target (sink_pos s) d)) eqn:Hok;
  destruct alive; simpl; rewrite <- !app_assoc; simpl;
  destruct s; reflexivity.
Qed.

(** Claim C1: for every position p and delta d, handling [Rewind d] issues
    exactly one absolute seek, to the target [p - d] when [d <= p] and to 0
    when [d > p] (saturating subtraction, never negative); when the seek
    succeeds that target becomes the sink's new position. *)
Theorem rewind_saturating_target (s : Sink) (chan : list Duration.t) (alive : bool)
  (tr : list Event) (d : Duration.t) :
  let p := sink_pos s in
  let target := if d <=? p then p - d else 0 in
  exists w',
    handle_messages (Rewind d) (mkWorld (Some s) chan alive tr) = Ok (w', tt) /\
    seeks_of (w_trace w') = seeks_of tr ++ [(target, sink_seek_ok s target)] /\
    w_sink w' = Some (if sink_seek_ok s target then sink_set_pos s target else s) /\
    rewind_target p d = target.
Proof.
  cbv zeta. rewrite handle_rewind_eq. rewrite rewind_target_spec.
  eexists; split; [reflexivity|]. simpl.
  split; [|split; reflexivity].
  rewrite !seeks_of_app. simpl.
  destruct (sink_seek_ok s _), alive; simpl; rewrite ?app_nil_r; reflexivity.
Qed.

(** The log lines in a trace. *)
Fixpoint logs_of (tr : list Event) : list LogLine :=
  match tr with
  | [] => []
  | ELog l :: tr' => l :: logs_of tr'
  | _ :: tr' => logs_of tr'
  end.

Lemma logs_of_app (a b : list Event) : logs_of (a ++ b) = logs_of a ++ logs_of b.
Proof. induction a as [|e a IH]; [reflexivity|destruct e; simpl; rewrite ?IH; reflexivity]. Qed.

(** The whole effect of [handle_messages (FastForward d)] on an initialised
    slot, when [p + d] fits in a [Duration]. *)
Lemma handle_fast_forward_eq (s : Sink) (chan : list Duration.t) (alive : bool)
  (tr : list Event) (d : Duration.t) :
  sink_pos s + d <= Duration.MAX ->
  let t := sink_pos s + d in
  let ok := sink_seek_ok s t in
  let s' := if ok then sink_set_pos s t else s in
  handle_messages (FastForward d) (mkWorld (Some s) chan alive tr) =
  Ok (mkWorld (Some s') (if alive then chan ++ [t] else chan) alive
        (tr ++ [ELock; EGetPos (sink_pos s); ELog (LogTarget t); ESeek t ok]
            ++ (if ok then [] else [ELog LogFastForwardErr])
            ++ [ESend t alive]
            ++ (if alive then [] else [ELog LogSendPosErr])
            ++ [EUnlock]), tt).
Proof.
  intros Hle. cbv zeta.
  unfold handle_messages, with_sink, fast_forward, get_pos, duration_add,
    Duration.checked_add; simpl.
  apply N.leb_le in Hle. rewrite Hle. simpl.
  unfold try_seek, send_pos, emit, put_sink; simpl.
  destruct (sink_seek_ok s (sink_pos s + d)) eqn:Hok;
  destruct alive; simpl; rewrite <- !app_assoc; simpl;
  destruct s; reflexivity.
Qed.

(** Past [Duration::MAX] the addition panics before any seek. *)
Lemma handle_fast_forward_overflow (s : Sink) (chan : list Duration.t) (alive : bool)
  (tr : list Event) (d : Duration.t) :
  Duration.MAX < sink_pos s + d ->
  handle_messages (FastForward d) (mkWorld (Some s) chan alive tr) =
  Panic "overflow when adding durations".
Proof.
  intros Hlt. unfold handle_messages, with_sink, fast_forward, get_pos, duration_add,
    Duration.checked_add; simpl.
  replace (sink_pos s + d <=? Duration.MAX) with false; [reflexivity|].
  symmetry. apply N.leb_gt. exact Hlt.
Qed.

(** The absolute target a seek command aims at from position [p]; [None]
    for commands that do not seek, or when the addition overflows. *)
Definition seek_target (p : Duration.t) (m : Message) : option Duration.t :=
  match m with
  | Play | Pause => None
  | FastForward d => Duration.checked_add p d
  | Rewind d => Some (rewind_target p d)
  end.

(** The log line a failed seek of [m] writes. *)
Definition seek_err_line (m : Message) : LogLine :=
  match m with
  | Rewind _ => LogRewindErr
  | _ => LogFastForwardErr
  end.

(** A sink whose decoder rejects every seek, at position [p]. *)
Definition stuck_sink (p : Duration.t) : Sink := mkSink p false (fun _ => false).

(** A sink whose decoder accepts every seek, at position [p]. *)
Definition free_sink (p : Duration.t) : Sink := mkSink p false (fun _ => true).

(** Claim C6 fails at the top of the [Duration] range: with the sink at
    [Duration::MAX] and [FastForward 1ns], [current_pos + duration_secs]
    panics and no seek is issued. *)
Lemma fast_forward_overflow_counterexample :
  handle_messages (FastForward 1) (mkWorld (Some (free_sink Duration.MAX)) [] true []) =
  Panic "overflow when adding durations".
Proof. reflexivity. Qed.

(** Claim C6 (amended): for every position p and delta d whose sum fits in
    a [Duration], handling [FastForward d] logs the target p + d and issues
    exactly one absolute seek to it; if that seek fails the error is logged,
    the sink (position and play state) is left as it was and the seek is not
    retried; if it succeeds the sink is at p + d. *)
Theorem fast_forward_single_seek (s : Sink) (chan : list Duration.t) (alive : bool)
  (tr : list Event) (d : Duration.t) (Hfit : sink_pos s + d <= Duration.MAX) :
  let t := sink_pos s + d in
  let ok := sink_seek_ok s t in
  exists w',
    handle_messages (FastForward d) (mkWorld (Some s) chan alive tr) = Ok (w', tt) /\
    seeks_of (w_trace w') = seeks_of tr ++ [(t, ok)] /\
    w_sink w' = Some (if ok then sink_set_pos s t else s) /\
    logs_of (w_trace w') =
      logs_of tr ++ [LogTarget t] ++ (if ok then [] else [LogFastForwardErr])
                 ++ (if alive then [] else [LogSendPosErr]).
Proof.
  cbv zeta. rewrite (handle_fast_forward_eq s chan alive tr d Hfit).
  eexists; split; [reflexivity|]. simpl.
  rewrite !seeks_of_app, !logs_of_app. simpl.
  destruct (sink_seek_ok s _), alive; simpl; rewrite ?app_nil_r;
    repeat split; reflexivity.
Qed.

Lemma fast_forward_single_seek_witness :
  (0 + 5000000000 <= Duration.MAX) /\
  exists w',
    handle_messages (FastForward 5000000000)
      (mkWorld (Some (stuck_sink 0)) [] true []) = Ok (w', tt) /\
    seeks_of (w_trace w') = seeks_of [] ++ [(0 + 5000000000, false)] /\
    w_sink w' = Some (if false then sink_set_pos (stuck_sink 0) (0 + 5000000000)
                      else stuck_sink 0) /\
    logs_of (w_trace w') =
      logs_of [] ++ [LogTarget (0 + 5000000000)]
        ++ (if false then [] else [LogFastForwardErr]) ++ (if true then [] else [LogSendPosErr]).
Proof.
  assert (H : sink_pos (stuck_sink 0) + 5000000000 <= Duration.MAX)
    by (vm_compute; discriminate).
  split; [exact H|].
  exact (fast_forward_single_seek (stuck_sink 0) [] true [] 5000000000 H).
Defined.

(** Claim C3 (amended): when the seek of a [FastForward] (whose sum fits in
    a [Duration]) or a [Rewind] fails, the error is logged, the sink is left
    exactly as it was (position and play state), exactly one seek was issued
    (no retry), and the target position is still sent to the progress bar
    whenever its receiver is alive. *)
Theorem seek_failure_absorbed (s : Sink) (chan : list Duration.t) (alive : bool)
  (tr : list Event) (m : Message) (t : Duration.t)
  (Hm : seek_target (sink_pos s) m = Some t) (Hfail : sink_seek_ok s t = false) :
  exists w',
    handle_messages m (mkWorld (Some s) chan alive tr) = Ok (w', tt) /\
    w_sink w' = Some s /\
    seeks_of (w_trace w') = seeks_of tr ++ [(t, false)] /\
    In (seek_err_line m) (logs_of (w_trace w')) /\
    w_pos_chan w' = (if alive then chan ++ [t] else chan).
Proof.
  destruct m as [| |d|d]; simpl in Hm; try discriminate.
  - unfold Duration.checked_add in Hm.
    destruct (sink_pos s + d <=? Duration.MAX) eqn:Hle; [|discriminate].
    injection Hm as <-. apply N.leb_le in Hle.
    rewrite (handle_fast_forward_eq s chan alive tr d Hle). simpl. rewrite Hfail.
    eexists; split; [reflexivity|]. simpl.
    rewrite !seeks_of_app, !logs_of_app.
    destruct alive; simpl; repeat split; try reflexivity;
      apply in_or_app; right; simpl; auto.
  - injection Hm as <-.
    rewrite handle_rewind_eq. simpl. rewrite Hfail.
    eexists; split; [reflexivity|]. simpl.
    rewrite !seeks_of_app, !logs_of_app.
    destruct alive; simpl; repeat split; try reflexivity;
      apply in_or_app; right; simpl; auto.
Qed.

Lemma seek_failure_absorbed_witness :
  (seek_target (sink_pos (stuck_sink 10000000000)) (Rewind 5000000000) = Some 5000000000 /\
   sink_seek_ok (stuck_sink 10000000000) 5000000000 = false) /\
  exists w',
    handle_messages (Rewind 5000000000)
      (mkWorld (Some (stuck_sink 10000000000)) [] true []) = Ok (w', tt) /\
    w_sink w' = Some (stuck_sink 10000000000) /\
    seeks_of (w_trace w') = seeks_of [] ++ [(5000000000, false)] /\
    In (seek_err_line (Rewind 5000000000)) (logs_of (w_trace w')) /\
    w_pos_chan w' = (if true then [] ++ [5000000000] else []).
Proof.
  assert (H1 : seek_target (sink_pos (stuck_sink 10000000000)) (Rewind 5000000000)
               = Some 5000000000) by reflexivity.
  assert (H2 : sink_seek_ok (stuck_sink 10000000000) 5000000000 = false) by reflexivity.
  split; [split; [exact H1|exact H2]|].
  exact (seek_failure_absorbed (stuck_sink 10000000000) [] true [] _ _ H1 H2).
Defined.

(** ** [ProgressBar::format_duration] *)

(** The ASCII digit of a value below 10. *)
Definition digit_char (n : N) : ascii := ascii_of_N (48 + n).

(** Rust's [Display] for an unsigned integer: its decimal digits, most
    significant first, no leading zeros. *)
Fixpoint fmt_digits (fuel : nat) (n : N) (acc : string) : string :=
  match fuel with
  | O => acc
  | S f =>
      let acc' := String (digit_char (n mod 10)) acc in
      if n <? 10 then acc' else fmt_digits f (n / 10) acc'
  end.

Definition fmt_u64 (n : N) : string := fmt_digits (S (N.size_nat n)) n EmptyString.

Fixpoint zeros (k : nat) : string :=
  match k with
  | O => EmptyString
  | S k' => String "0" (zeros k')
  end.

(** [{:02}]: the decimal digits, left-padded with '0' to width 2. *)
Definition fmt_02 (n : N) : string :=
  let s := fmt_u64 n in
  String.append (zeros (Nat.sub 2 (String.length s))) s.

Definition format_duration (duration : Duration.t) : string :=
  let total_secs := Duration.as_secs duration in
  let hours := total_secs / 3600 in
  let rem_secs := total_secs mod 3600 in
  let minutes := rem_secs / 60 in
  let seconds := rem_secs mod 60 in
  if 0 <? hours then
    (fmt_u64 hours ++ ":" ++ fmt_02 minutes ++ ":" ++ fmt_02 seconds)%string
  else (fmt_u64 minutes ++ ":" ++ fmt_02 seconds)%string.

(** A two-character field: tens digit then units digit. *)
Definition two_digits (n : N) : string :=
  String (digit_char (n / 10)) (String (digit_char (n mod 10)) EmptyString).

(** Number of occurrences of a character in a string. *)
Fixpoint count_char (c : ascii) (s : string) : nat :=
  match s with
  | EmptyString => O
  | String c' s' => (if Ascii.eqb c c' then 1 else 0) + count_char c s'
  end%nat.

Lemma count_char_append (c : ascii) (a b : string) :
  count_char c (a ++ b)%string = (count_char c a + count_char c b)%nat.
Proof. induction a as [|x a IH]; simpl; [reflexivity|rewrite IH; lia]. Qed.

Lemma digit_char_not_colon (k : N) : k < 10 -> Ascii.eqb ":" (digit_char k) = false.
Proof.
  intros Hk.
  assert (k = 0 \/ k = 1 \/ k = 2 \/ k = 3 \/ k = 4 \/ k = 5 \/ k = 6 \/ k = 7
          \/ k = 8 \/ k = 9) as Hc by lia.
  repeat destruct Hc as [-> | Hc]; try reflexivity; subst; reflexivity.
Qed.

Lemma fmt_digits_no_colon (fuel : nat) (n : N) (acc : string) :
  count_char ":" (fmt_digits fuel n acc) = count_char ":" acc.
Proof.
  revert n acc. induction fuel as [|f IH]; intros n acc; cbn [fmt_digits]; [reflexivity|].
  assert (Hd : Ascii.eqb ":" (digit_char (n mod 10)) = false)
    by (apply digit_char_not_colon, N.mod_lt; discriminate).
  destruct (n <? 10).
  - cbn [count_char]. rewrite Hd. reflexivity.
  - rewrite IH. cbn [count_char]. rewrite Hd. reflexivity.
Qed.

Lemma fmt_u64_no_colon (n : N) : count_char ":" (fmt_u64 n) = O.
Proof. unfold fmt_u64. rewrite fmt_digits_no_colon. reflexivity. Qed.

(** [{:02}] agrees with [two_digits] on every value below 100, checked
    value by value. *)
Definition fmt_02_agrees_upto (k : nat) : bool :=
  forallb (fun i => String.eqb (fmt_02 (N.of_nat i)) (two_digits (N.of_nat i)))
          (seq 0 k).

Lemma fmt_02_two_digits (n : N) : n < 100 -> fmt_02 n = two_digits n.
Proof.
  intros Hn.
  assert (Hall : fmt_02_agrees_upto 100 = true) by (vm_compute; reflexivity).
  unfold fmt_02_agrees_upto in Hall. rewrite forallb_forall in Hall.
  specialize (Hall (N.to_nat n)).
  rewrite in_seq, N2Nat.id in Hall.
  apply String.eqb_eq, Hall. lia.
Qed.

Lemma mod_3600_mod_60 (a : N) : (a mod 3600) mod 60 = a mod 60.
Proof.
  change 3600 with (60 * 60). rewrite N.Div0.mod_mul_r.
  rewrite N.mul_comm, N.Div0.mod_add. apply N.Div0.mod_mod.
Qed.

(** Claim C8: [format_duration] renders 61 s as "1:01", 158 s as "2:38" and
    3601 s as "1:00:01"; for every duration it writes minutes and seconds
    (both as two-digit fields, zero-padded) when the total is under one
    hour, and hours, two-digit minutes and two-digit seconds otherwise, so
    the output has one ':' exactly when the total is under an hour. *)
Theorem format_duration_fields :
  format_duration (Duration.from_secs 61) = "1:01"%string /\
  format_duration (Duration.from_secs 158) = "2:38"%string /\
  format_duration (Duration.from_secs 3601) = "1:00:01"%string /\
  forall d : Duration.t,
    let ts := Duration.as_secs d in
    format_duration d =
      (if ts <? 3600
       then (fmt_u64 (ts / 60) ++ ":" ++ two_digits (ts mod 60))%string
       else (fmt_u64 (ts / 3600) ++ ":" ++ two_digits ((ts mod 3600) / 60)
               ++ ":" ++ two_digits (ts mod 60))%string) /\
    count_char ":" (format_duration d) = (if ts <? 3600 then 1 else 2)%nat.
Proof.
  split; [reflexivity|]. split; [reflexivity|]. split; [reflexivity|].
  intros d. cbv zeta. set (ts := Duration.as_secs d).
  assert (Hm : (ts mod 3600) / 60 < 60).
  { apply N.Div0.div_lt_upper_bound. pose proof (N.mod_lt ts 3600). lia. }
  assert (Hs : ts mod 60 < 60) by (apply N.mod_lt; discriminate).
  assert (Hf : format_duration d =
      (if ts <? 3600
       then (fmt_u64 (ts / 60) ++ ":" ++ two_digits (ts mod 60))%string
       else (fmt_u64 (ts / 3600) ++ ":" ++ two_digits ((ts mod 3600) / 60)
               ++ ":" ++ two_digits (ts mod 60))%string)).
  { unfold format_duration. fold ts. rewrite mod_3600_mod_60.
    rewrite (fmt_02_two_digits (ts mod 60)), (fmt_02_two_digits ((ts mod 3600) / 60)) by lia.
    destruct (ts <? 3600) eqn:Hlt.
    - apply N.ltb_lt in Hlt.
      rewrite (N.div_small ts 3600 Hlt), (N.mod_small ts 3600 Hlt). reflexivity.
    - apply N.ltb_ge in Hlt.
      assert (H1 : 1 <= ts / 3600) by (apply N.div_le_lower_bound; lia).
      replace (0 <? ts / 3600) with true by (symmetry; apply N.ltb_lt; lia).
      reflexivity. }
  split; [exact Hf|]. rewrite Hf.
  assert (Htd : forall n, n < 100 -> count_char ":" (two_digits n) = O).
  { intros n Hn. unfold two_digits. cbn [count_char].
    rewrite !digit_char_not_colon; [reflexivity| |].
    - apply N.mod_lt. discriminate.
    - apply N.Div0.div_lt_upper_bound. lia. }
  destruct (ts <? 3600); rewrite !count_char_append, fmt_u64_no_colon, !Htd by lia;
    reflexivity.
Qed.

(** ** [ProgressBar] (src/src/app/ui/progress_bar.rs)

    The display-side state: the receiving end of the position channel, the
    stored [current_audio_pos], the timestamp label and the progress value
    (milliseconds), and the messages sent to the worker on a click. *)
Record ProgressBar : Type := mkProgressBar {
  audio_length : Duration.t;
  audio_pos_receiver : list Duration.t;
  current_audio_pos : Duration.t;
  pos_timestamp_label : string;
  progress_value : N;
  audio_sender : list Message
}.

(** [ProgressBar::new]: position 0, label "0:00", value 0. *)
Definition ProgressBar_new (len : Duration.t) : ProgressBar :=
  mkProgressBar len [] 0 "0:00" 0 [].

(** The drain loop of [ProgressBar::update]: every received position is
    clamped into [0, audio_length] and stored; the last one stays. *)
Fixpoint drain_positions (len : Duration.t) (rx : list Duration.t) (cur : Duration.t)
  : outcome Duration.t :=
  match rx with
  | [] => Ok cur
  | pos :: rx' =>
      c <- duration_clamp pos Duration.ZERO len ;;
      drain_positions len rx' c
  end.

(** [ProgressBar::update] *)
Definition update (pb : ProgressBar) : outcome ProgressBar :=
  cur <- drain_positions (audio_length pb) (audio_pos_receiver pb) (current_audio_pos pb) ;;
  Ok (mkProgressBar (audio_length pb) [] cur (format_duration cur)
        (Duration.as_millis cur) (audio_sender pb)).

(** The left-click branch of the knob overlay's handler, once the click has
    been turned into [position_to_seek]: it only reads [current_audio_pos]. *)
Definition on_click (pb : ProgressBar) (position_to_seek : Duration.t) : ProgressBar :=
  let cur := current_audio_pos pb in
  let msg := if cur <? position_to_seek then FastForward (position_to_seek - cur)
             else Rewind (cur - position_to_seek) in
  mkProgressBar (audio_length pb) (audio_pos_receiver pb) cur
    (pos_timestamp_label pb) (progress_value pb) (audio_sender pb ++ [msg]).

(** What can happen to the progress bar: a sample arrives on its channel
    (from the reporter or from a seek), the main loop calls [update], or the
    user clicks the bar. *)
Inductive PbOp : Type :=
| PbReceive (d : Duration.t)
| PbUpdate
| PbClick (position_to_seek : Duration.t).

Definition pb_step (pb : ProgressBar) (op : PbOp) : outcome ProgressBar :=
  match op with
  | PbReceive d =>
      Ok (mkProgressBar (audio_length pb) (audio_pos_receiver pb ++ [d])
            (current_audio_pos pb) (pos_timestamp_label pb) (progress_value pb)
            (audio_sender pb))
  | PbUpdate => update pb
  | PbClick p => Ok (on_click pb p)
  end.

Fixpoint pb_run (pb : ProgressBar) (ops : list PbOp) : outcome ProgressBar :=
  match ops with
  | [] => Ok pb
  | op :: ops' => pb' <- pb_step pb op ;; pb_run pb' ops'
  end.

Lemma duration_clamp_bounded (d len : Duration.t) :
  exists c, duration_clamp d Duration.ZERO len = Ok c /\ c <= len.
Proof.
  unfold duration_clamp, Duration.ZERO.
  replace (0 <=? len) with true by (symmetry; apply N.leb_le; lia). simpl.
  destruct (d <? 0) eqn:H0; [exists 0; split; [reflexivity|lia]|].
  destruct (len <? d) eqn:H1; [exists len; split; [reflexivity|lia]|].
  exists d. split; [reflexivity|]. apply N.ltb_ge in H1. exact H1.
Qed.

Lemma drain_positions_bounded (len : Duration.t) (rx : list Duration.t) (cur : Duration.t) :
  cur <= len -> exists c, drain_positions len rx cur = Ok c /\ c <= len.
Proof.
  revert cur. induction rx as [|pos rx IH]; intros cur Hcur; simpl.
  - exists cur. split; [reflexivity|exact Hcur].
  - destruct (duration_clamp_bounded pos len) as [c [-> Hc]]. simpl. apply IH, Hc.
Qed.

(** Claim C5: starting from [ProgressBar::new], after any sequence of
    received samples (of any value), updates and clicks, the progress bar
    never panics and its stored position, from which both the timestamp
    label and the progress value are drawn, lies in [0, audio_length]. *)
Theorem progress_position_clamped (len : Duration.t) (ops : list PbOp) :
  exists pb,
    pb_run (ProgressBar_new len) ops = Ok pb /\
    audio_length pb = len /\
    0 <= current_audio_pos pb <= len.
Proof.
  assert (Hgen : forall pb, current_audio_pos pb <= audio_length pb ->
    exists pb', pb_run pb ops = Ok pb' /\ audio_length pb' = audio_length pb /\
                current_audio_pos pb' <= audio_length pb').
  { induction ops as [|op ops IH]; intros pb Hpb; simpl.
    - exists pb. auto.
    - destruct op as [d| |p]; simpl.
      + destruct (IH (mkProgressBar (audio_length pb) (audio_pos_receiver pb ++ [d])
            (current_audio_pos pb) (pos_timestamp_label pb) (progress_value pb)
            (audio_sender pb)) Hpb) as [pb' [H1 [H2 H3]]].
        exists pb'. auto.
      + unfold update.
        destruct (drain_positions_bounded (audio_length pb) (audio_pos_receiver pb)
                    (current_audio_pos pb) Hpb) as [c [-> Hc]]. simpl.
        destruct (IH (mkProgressBar (audio_length pb) [] c (format_duration c)
                        (Duration.as_millis c) (audio_sender pb)) Hc) as [pb' [H1 [H2 H3]]].
        exists pb'. auto.
      + destruct (IH (on_click pb p) Hpb) as [pb' [H1 [H2 H3]]].
        exists pb'. auto. }
  destruct (Hgen (ProgressBar_new len) (N.le_0_l len)) as [pb [H1 [H2 H3]]].
  simpl in H2. exists pb. split; [exact H1|]. split; [exact H2|].
  rewrite H2 in H3. lia.
Qed.

(** The position and label the progress bar shows after [ops]. *)
Definition shown_after (len : Duration.t) (ops : list PbOp) : outcome (Duration.t * string) :=
  pb <- pb_run (ProgressBar_new len) ops ;;
  Ok (current_audio_pos pb, pos_timestamp_label pb).

(** Claim C3 fails: with the sink at 10 s and a decoder that rejects every
    seek, [Rewind 5s] leaves the sink at 10 s but still sends 5 s on the
    position channel, and the progress bar that showed "0:10" then shows
    "0:05". *)
Lemma seek_failure_display_counterexample :
  handle_messages (Rewind (Duration.from_secs 5))
    (mkWorld (Some (stuck_sink (Duration.from_secs 10))) [] true []) =
  Ok (mkWorld (Some (stuck_sink (Duration.from_secs 10))) [Duration.from_secs 5] true
        [ELock; EGetPos (Duration.from_secs 10); ESeek (Duration.from_secs 5) false;
         ELog LogRewindErr; ESend (Duration.from_secs 5) true; EUnlock], tt) /\
  shown_after (Duration.from_secs 60) [PbReceive (Duration.from_secs 10); PbUpdate] =
    Ok (Duration.from_secs 10, "0:10"%string) /\
  shown_after (Duration.from_secs 60)
    [PbReceive (Duration.from_secs 10); PbUpdate; PbReceive (Duration.from_secs 5); PbUpdate] =
    Ok (Duration.from_secs 5, "0:05"%string).
Proof. split; [reflexivity|]. split; vm_compute; reflexivity. Qed.

(** ** The Position Reporter ([AudioHandler::send_audio_pos]) *)

(** One turn of the reporter's loop: under [with_sink], sleep 100 ms and
    read the position; then send it. Returns whether the send succeeded. *)
Definition send_audio_pos_iter (w : World) : outcome (World * bool) :=
  r <- with_sink w (fun sink w =>
         let w := emit w (ESleep 100) in
         Ok (get_pos w sink)) ;;
  let '(w, current_pos) := r in
  Ok (send_pos w current_pos).

(** The consumer of the position channel is dropped. *)
Definition drop_rx (w : World) : World :=
  mkWorld (w_sink w) (w_pos_chan w) false (w_trace w ++ [EDropRx]).

(** The reporter's [loop], run for at most [fuel] turns, with the consumer
    dropped just before turn [drop_at]. Returns whether the loop has exited
    (the [break] on a failed send). *)
Fixpoint send_audio_pos_loop (fuel drop_at : nat) (w : World) : outcome (World * bool) :=
  match fuel with
  | O => Ok (w, false)
  | S f =>
      let w := if Nat.eqb drop_at 0 then drop_rx w else w in
      r <- send_audio_pos_iter w ;;
      let '(w, sent) := r in
      if sent then send_audio_pos_loop f (Nat.pred drop_at) w else Ok (w, true)
  end.

(** The effects of one turn, reading position [p], whose send succeeds or not. *)
Definition reporter_turn (p : Duration.t) (sent : bool) : list Event :=
  [ELock; ESleep 100; EGetPos p; EUnlock; ESend p sent].

Lemma send_audio_pos_iter_eq (s : Sink) (chan : list Duration.t) (alive : bool)
  (tr : list Event) :
  send_audio_pos_iter (mkWorld (Some s) chan alive tr) =
  Ok (mkWorld (Some s) (if alive then chan ++ [sink_pos s] else chan) alive
        (tr ++ reporter_turn (sink_pos s) alive), alive).
Proof.
  unfold send_audio_pos_iter, with_sink, get_pos, send_pos, emit, reporter_turn; simpl.
  destruct alive; simpl; rewrite <- !app_assoc; reflexivity.
Qed.

Lemma send_audio_pos_loop_S (f j : nat) (w : World) :
  send_audio_pos_loop (S f) j w =
  bind (send_audio_pos_iter (if Nat.eqb j 0 then drop_rx w else w))
       (fun r => let '(w', sent) := r in
                 if sent then send_audio_pos_loop f (Nat.pred j) w' else Ok (w', true)).
Proof. reflexivity. Qed.

(** The events whose execution happens while the sink lock is held. *)
Fixpoint held_events_from (held : bool) (tr : list Event) : list Event :=
  match tr with
  | [] => []
  | ELock :: tr' => held_events_from true tr'
  | EUnlock :: tr' => held_events_from false tr'
  | e :: tr' => if held then e :: held_events_from held tr' else held_events_from held tr'
  end.

Definition held_events (tr : list Event) : list Event := held_events_from false tr.

(** Claim C7: once the consumer of the position channel is dropped (here
    before turn [k]), the reporter finishes the turn it is in with one more
    sleep of 100 ms, its send fails and the loop exits: no panic, no retry,
    exactly one polling interval after the drop. While the consumer is
    alive, every send succeeds and the loop keeps going. *)
Theorem reporter_stops_after_drop (s : Sink) (chan : list Duration.t) (tr : list Event) :
  (forall k m : nat,
     send_audio_pos_loop (S (k + m)) k (mkWorld (Some s) chan true tr) =
     Ok (mkWorld (Some s) (chan ++ repeat (sink_pos s) k) false
           (tr ++ concat (repeat (reporter_turn (sink_pos s) true) k)
               ++ [EDropRx] ++ reporter_turn (sink_pos s) false), true)) /\
  (forall n : nat,
     send_audio_pos_loop n n (mkWorld (Some s) chan true tr) =
     Ok (mkWorld (Some s) (chan ++ repeat (sink_pos s) n) true
           (tr ++ concat (repeat (reporter_turn (sink_pos s) true) n)), false)).
Proof.
  split.
  - intros k m. revert chan tr. induction k as [|k IH]; intros chan tr.
    + rewrite send_audio_pos_loop_S. cbn [Nat.eqb]. unfold drop_rx.
      cbn [w_sink w_pos_chan w_rx_alive w_trace].
      rewrite send_audio_pos_iter_eq. cbn [bind].
      rewrite !app_nil_r, <- !app_assoc. reflexivity.
    + rewrite send_audio_pos_loop_S. cbn [Nat.eqb Nat.pred Nat.add].
      rewrite send_audio_pos_iter_eq. cbn [bind]. rewrite IH.
      cbn [repeat concat]. rewrite <- !app_assoc. reflexivity.
  - assert (Hgen : forall f j c t, (f <= j)%nat ->
      send_audio_pos_loop f j (mkWorld (Some s) c true t) =
      Ok (mkWorld (Some s) (c ++ repeat (sink_pos s) f) true
            (t ++ concat (repeat (reporter_turn (sink_pos s) true) f)), false)).
    { induction f as [|f IH]; intros j c t Hj.
      - simpl. rewrite !app_nil_r. reflexivity.
      - destruct j as [|j]; [lia|].
        rewrite send_audio_pos_loop_S. cbn [Nat.eqb Nat.pred].
        rewrite send_audio_pos_iter_eq. cbn [bind].
        rewrite (IH j) by lia. cbn [repeat concat].
        rewrite <- !app_assoc. reflexivity. }
    intros n. apply Hgen. lia.
Qed.

(** Claim C9 fails: in every turn of the Position Reporter the 100 ms
    sleep runs with the sink lock held (it is inside the [with_sink]
    closure), and so do the seek and the position send of a [Rewind]. *)
Lemma lock_held_across_sleep_counterexample :
  send_audio_pos_iter (mkWorld (Some (free_sink 0)) [] true []) =
    Ok (mkWorld (Some (free_sink 0)) [0] true (reporter_turn 0 true), true) /\
  held_events (reporter_turn 0 true) = [ESleep 100; EGetPos 0] /\
  held_events [ELock; EGetPos 0; ESeek 0 true; ESend 0 true; EUnlock] =
    [EGetPos 0; ESeek 0 true; ESend 0 true] /\
  handle_messages (Rewind 5) (mkWorld (Some (free_sink 0)) [] true []) =
    Ok (mkWorld (Some (free_sink 0)) [0] true
          [ELock; EGetPos 0; ESeek 0 true; ESend 0 true; EUnlock], tt).
Proof. repeat split; reflexivity. Qed.

(** Claim C9 (amended): each turn of the Position Reporter
    ([send_audio_pos_iter]) holds the sink lock across exactly the 100 ms
    sleep and the position read, and sends only after releasing it (the
    send is in the turn's events but not among those run under the lock);
    the Playback Worker holds the lock for the whole handling of a seek
    command: the position read, the seek, any
    error log and the position send (a [FastForward] whose sum overflows
    panics instead). *)
Theorem lock_scopes (s : Sink) (chan : list Duration.t) (alive : bool)
  (tr : list Event) (d : Duration.t) :
  let p := sink_pos s in
  (exists w' seg,
     send_audio_pos_iter (mkWorld (Some s) chan alive tr) = Ok (w', alive) /\
     w_trace w' = tr ++ seg /\
     held_events seg = [ESleep 100; EGetPos p] /\
     In (ESend p alive) seg) /\
  (let t := rewind_target p d in
   let ok := sink_seek_ok s t in
   exists w' seg,
     handle_messages (Rewind d) (mkWorld (Some s) chan alive tr) = Ok (w', tt) /\
     w_trace w' = tr ++ seg /\
     held_events seg =
       [EGetPos p; ESeek t ok] ++ (if ok then [] else [ELog LogRewindErr])
         ++ [ESend t alive] ++ (if alive then [] else [ELog LogSendPosErr])) /\
  (handle_messages (FastForward d) (mkWorld (Some s) chan alive tr) =
     Panic "overflow when adding durations" \/
   let t := p + d in
   let ok := sink_seek_ok s t in
   exists w' seg,
     handle_messages (FastForward d) (mkWorld (Some s) chan alive tr) = Ok (w', tt) /\
     w_trace w' = tr ++ seg /\
     held_events seg =
       [EGetPos p; ELog (LogTarget t); ESeek t ok] ++ (if ok then [] else [ELog LogFastForwardErr])
         ++ [ESend t alive] ++ (if alive then [] else [ELog LogSendPosErr])).
Proof.
  cbv zeta. split.
  { rewrite send_audio_pos_iter_eq.
    exists (mkWorld (Some s) (if alive then chan ++ [sink_pos s] else chan) alive
              (tr ++ reporter_turn (sink_pos s) alive)),
           (reporter_turn (sink_pos s) alive).
    split; [reflexivity|]. split; [reflexivity|]. split; [reflexivity|].
    unfold reporter_turn. simpl. auto 6. }
  split.
  - rewrite handle_rewind_eq. do 2 eexists. split; [reflexivity|].
    split; [reflexivity|].
    destruct (sink_seek_ok s _), alive; reflexivity.
  - destruct (N.le_gt_cases (sink_pos s + d) Duration.MAX) as [Hle|Hgt].
    + right. rewrite (handle_fast_forward_eq s chan alive tr d Hle).
      do 2 eexists. split; [reflexivity|]. split; [reflexivity|].
      destruct (sink_seek_ok s _), alive; reflexivity.
    + left. apply handle_fast_forward_overflow. exact Hgt.
Qed.

(** ** The Playback Worker ([AudioHandler::play_audio]) and the command channel *)

(** The worker thread: not yet past its start-up code, in its [loop], or
    ended by a panic. *)
Inductive WorkerState : Type :=
| WStarting
| WLooping
| WDead (msg : string).

(** The whole playback side: the shared world, the command channel's queue
    ([mpsc::channel::<Message>], whose receiver the [App] keeps alive), the
    worker thread, and, as ghost state, every command in the order the
    producers sent it. [sys_device_ok] says whether the default output device
    opens, [sys_decoder_seek] which seeks the decoder accepts. *)
Record System : Type := mkSystem {
  sys_world : World;
  sys_queue : list Message;
  sys_worker : WorkerState;
  sys_sent : list Message;
  sys_device_ok : bool;
  sys_decoder_seek : Duration.t -> bool
}.

(** The sink [create_sink] builds and [sink.append(decoder)] starts: at
    position 0, playing. *)
Definition new_playing_sink (seek_ok : Duration.t -> bool) : Sink := mkSink 0 false seek_ok.

(** The start-up code of the worker thread, up to its [loop]:
    [open_output_stream] ([expect]), [create_sink], [append],
    [*sink_ref.lock().unwrap() = Some(sink)]. *)
Definition worker_start (w : World) (device_ok : bool) (seek_ok : Duration.t -> bool)
  : outcome World :=
  if device_ok then Ok (put_sink w (new_playing_sink seek_ok))
  else Panic "open default audio stream".

(** What can happen next: a producer (a UI callback, identified by a
    number) sends a command, or the worker thread runs its next step. *)
Inductive Action : Type :=
| ASend (producer : nat) (m : Message)
| AWorker.

Definition set_world (st : System) (w : World) (ws : WorkerState) (q : list Message) : System :=
  mkSystem w q ws (sys_sent st) (sys_device_ok st) (sys_decoder_seek st).

(** One step. A send appends to the queue and never blocks. A worker step
    either runs the start-up code, or takes the head of the queue
    ([receiver.lock().unwrap().recv().unwrap()]) and runs
    [handle_messages] on it to completion; on an empty queue it blocks. *)
Definition sys_step (st : System) (a : Action) : System :=
  match a with
  | ASend _ m =>
      mkSystem (sys_world st) (sys_queue st ++ [m]) (sys_worker st) (sys_sent st ++ [m])
        (sys_device_ok st) (sys_decoder_seek st)
  | AWorker =>
      match sys_worker st with
      | WStarting =>
          match worker_start (sys_world st) (sys_device_ok st) (sys_decoder_seek st) with
          | Ok w => set_world st w WLooping (sys_queue st)
          | Panic msg => set_world st (sys_world st) (WDead msg) (sys_queue st)
          end
      | WLooping =>
          match sys_queue st with
          | [] => st
          | m :: q =>
              let w := emit (sys_world st) (ERecv m) in
              match handle_messages m w with
              | Ok (w', _) => set_world st w' WLooping q
              | Panic msg => set_world st w (WDead msg) q
              end
          end
      | WDead _ => st
      end
  end.

Fixpoint sys_run (st : System) (sched : list Action) : System :=
  match sched with
  | [] => st
  | a :: sched' => sys_run (sys_step st a) sched'
  end.

(** [AudioHandler::new] and [App::run]: empty slot, empty channels. *)
Definition sys_init (device_ok : bool) (seek_ok : Duration.t -> bool) : System :=
  mkSystem (mkWorld None [] true []) [] WStarting [] device_ok seek_ok.

(** The commands the worker took, in the order it took them. *)
Fixpoint recvs_of (tr : list Event) : list Message :=
  match tr with
  | [] => []
  | ERecv m :: tr' => m :: recvs_of tr'
  | _ :: tr' => recvs_of tr'
  end.

Lemma recvs_of_app (a b : list Event) : recvs_of (a ++ b) = recvs_of a ++ recvs_of b.
Proof. induction a as [|e a IH]; [reflexivity|destruct e; simpl; rewrite ?IH; reflexivity]. Qed.

(** Handling a command on an initialised slot either panics on a
    fast-forward overflow or completes, keeping the slot initialised and
    only appending events that are not receptions. *)
Lemma handle_messages_shape (s : Sink) (chan : list Duration.t) (alive : bool)
  (tr : list Event) (m : Message) :
  handle_messages m (mkWorld (Some s) chan alive tr) = Panic "overflow when adding durations" \/
  exists s' chan' seg,
    handle_messages m (mkWorld (Some s) chan alive tr) =
      Ok (mkWorld (Some s') chan' alive (tr ++ seg), tt) /\
    recvs_of seg = [].
Proof.
  destruct m as [| |d|d].
  - right. do 3 eexists. split.
    + unfold handle_messages, with_sink, emit, put_sink; simpl.
      rewrite <- !app_assoc. reflexivity.
    + reflexivity.
  - right. do 3 eexists. split.
    + unfold handle_messages, with_sink, emit, put_sink; simpl.
      rewrite <- !app_assoc. reflexivity.
    + reflexivity.
  - destruct (N.le_gt_cases (sink_pos s + d) Duration.MAX) as [Hle|Hgt].
    + right. rewrite (handle_fast_forward_eq s chan alive tr d Hle).
      do 3 eexists. split; [reflexivity|].
      destruct (sink_seek_ok s _), alive; reflexivity.
    + left. apply handle_fast_forward_overflow. exact Hgt.
  - right. rewrite handle_rewind_eq. do 3 eexists. split; [reflexivity|].
    destruct (sink_seek_ok s _), alive; reflexivity.
Qed.

Lemma handle_messages_recvs (m : Message) (w w' : World) (u : unit) :
  handle_messages m w = Ok (w', u) -> recvs_of (w_trace w') = recvs_of (w_trace w).
Proof.
  destruct w as [[s|] chan alive tr]; intros H.
  - destruct (handle_messages_shape s chan alive tr m) as [Hp | (s' & chan' & seg & He & Hr)].
    + rewrite Hp in H. discriminate.
    + rewrite He in H. injection H as <- _. simpl.
      rewrite recvs_of_app, Hr, app_nil_r. reflexivity.
  - destruct m; discriminate.
Qed.

(** Claim C2: for every interleaving of sends from any number of producers
    with steps of the single worker thread, the commands the worker has
    taken, in the order it took them, followed by those still queued, are
    exactly the commands in the order they were sent; the worker takes a
    command only after it has completed the handling of the previous one
    (each worker step runs [handle_messages] to its end). *)
Theorem commands_in_send_order (device_ok : bool) (seek_ok : Duration.t -> bool)
  (sched : list Action) :
  let st := sys_run (sys_init device_ok seek_ok) sched in
  recvs_of (w_trace (sys_world st)) ++ sys_queue st = sys_sent st.
Proof.
  cbv zeta.
  assert (Hgen : forall st, recvs_of (w_trace (sys_world st)) ++ sys_queue st = sys_sent st ->
    let st' := sys_run st sched in
    recvs_of (w_trace (sys_world st')) ++ sys_queue st' = sys_sent st').
  { induction sched as [|a sched IH]; intros st Hst; cbv zeta; simpl; [exact Hst|].
    apply IH. destruct a as [p m|]; simpl.
    - rewrite app_assoc, Hst. reflexivity.
    - destruct (sys_worker st) as [| |msg] eqn:Hw.
      + destruct (worker_start (sys_world st) (sys_device_ok st) (sys_decoder_seek st))
          as [w|msg] eqn:Hs; simpl; [|exact Hst].
        unfold worker_start in Hs. destruct (sys_device_ok st); [|discriminate].
        injection Hs as <-. exact Hst.
      + destruct (sys_queue st) as [|m q] eqn:Hq; [rewrite Hq; exact Hst|].
        assert (He : recvs_of (w_trace (emit (sys_world st) (ERecv m))) ++ q = sys_sent st).
        { unfold emit. simpl. rewrite recvs_of_app. simpl. rewrite <- app_assoc. exact Hst. }
        destruct (handle_messages m (emit (sys_world st) (ERecv m))) as [[w' u]|msg] eqn:Hh;
          simpl; [|exact He].
        rewrite (handle_messages_recvs _ _ _ _ Hh). exact He.
      + exact Hst. }
  apply Hgen. reflexivity.
Qed.

(** The slot is initialised whenever the worker is in its loop, and the
    worker never died of an empty slot. *)
Definition slot_ready (st : System) : Prop :=
  match sys_worker st with
  | WStarting => True
  | WLooping => exists s, w_sink (sys_world st) = Some s
  | WDead msg => msg <> "Sink not initialized"%string
  end.

Lemma slot_ready_step (st : System) (a : Action) : slot_ready st -> slot_ready (sys_step st a).
Proof.
  unfold slot_ready. intros Hst. destruct a as [p m|]; simpl; [exact Hst|].
  destruct (sys_worker st) as [| |msg] eqn:Hw.
  - unfold worker_start. destruct (sys_device_ok st); simpl.
    + eexists. reflexivity.
    + discriminate.
  - destruct Hst as [s Hs].
    destruct (sys_queue st) as [|m q]; [rewrite Hw; exists s; exact Hs|].
    destruct (sys_world st) as [sk chan alive tr]. simpl in Hs. subst sk.
    unfold emit. cbn [w_sink w_pos_chan w_rx_alive w_trace].
    destruct (handle_messages_shape s chan alive (tr ++ [ERecv m]) m)
      as [Hp | (s' & chan' & seg & He & _)].
    + rewrite Hp. simpl. discriminate.
    + rewrite He. simpl. exists s'. reflexivity.
  - rewrite Hw. exact Hst.
Qed.

(** Claim C10: [with_sink], hence [handle_messages] for every command,
    panics with "Sink not initialized" when the slot is [None]; when the
    slot holds a sink no command reaches that panic (the only panic left is
    the overflow of a fast-forward); and in every run of the worker, whose
    start-up code stores the sink before its loop takes the first command,
    the slot is initialised whenever the loop runs and the worker never
    dies of that panic. *)
Theorem sink_initialised_precondition :
  (forall (chan : list Duration.t) (alive : bool) (tr : list Event) (m : Message),
     handle_messages m (mkWorld None chan alive tr) = Panic "Sink not initialized") /\
  (forall (s : Sink) (chan : list Duration.t) (alive : bool) (tr : list Event) (m : Message),
     handle_messages m (mkWorld (Some s) chan alive tr) <> Panic "Sink not initialized") /\
  (forall (device_ok : bool) (seek_ok : Duration.t -> bool) (sched : list Action),
     let st := sys_run (sys_init device_ok seek_ok) sched in
     sys_worker st <> WDead "Sink not initialized" /\
     match sys_worker st with
     | WLooping => exists s, w_sink (sys_world st) = Some s
     | _ => True
     end).
Proof.
  split; [intros chan alive tr []; reflexivity|].
  split.
  - intros s chan alive tr m.
    destruct (handle_messages_shape s chan alive tr m) as [Hp | (s' & chan' & seg & He & _)].
    + rewrite Hp. discriminate.
    + rewrite He. discriminate.
  - intros device_ok seek_ok sched. cbv zeta.
    assert (Hgen : forall st, slot_ready st -> slot_ready (sys_run st sched)).
    { induction sched as [|a sched IH]; intros st Hst; simpl; [exact Hst|].
      apply IH, slot_ready_step, Hst. }
    specialize (Hgen (sys_init device_ok seek_ok) I).
    unfold slot_ready in Hgen.
    destruct (sys_worker (sys_run (sys_init device_ok seek_ok) sched)) as [| |msg].
    + split; [discriminate|exact I].
    + split; [discriminate|exact Hgen].
    + split; [|exact I]. intros Heq. injection Heq as Heq. exact (Hgen Heq).
Qed.

(** ** Start-up metadata ([NowPlaying], src/src/app/ui/now_playing.rs)

    lofty's [Tag] with the two accessors used here, and a [TaggedFile] with
    its primary and first tags; [read_from_path] is the input. *)
Record Tag : Type := mkTag {
  tag_title : option string;
  tag_artist : option string
}.

Record TaggedFile : Type := mkTaggedFile {
  primary_tag : option Tag;
  first_tag : option Tag
}.

(** The [LoftyError] kinds that matter here. *)
Inductive ErrorKind : Type :=
| FakeTag
| ReadError.

Inductive result (A E : Type) : Type :=
| ROk (a : A)
| RErr (e : E).
Arguments ROk {A E} a.
Arguments RErr {A E} e.

(** [Option::is_none] *)
Definition is_none {A : Type} (o : option A) : bool :=
  match o with
  | None => true
  | Some _ => false
  end.

(** [tagged_file.primary_tag().or_else(|| tagged_file.first_tag())] *)
Definition select_tag (tf : TaggedFile) : option Tag :=
  match primary_tag tf with
  | Some t => Some t
  | None => first_tag tf
  end.

(** [NowPlaying::parse_file], given what [read_from_path(path)] returned. *)
Definition parse_file (file : result TaggedFile ErrorKind) : result Tag ErrorKind :=
  match file with
  | RErr e => RErr e
  | ROk tf =>
      match select_tag tf with
      | None => RErr FakeTag
      | Some tag =>
          if orb (is_none (tag_title tag)) (is_none (tag_artist tag))
          then RErr FakeTag
          else ROk tag
      end
  end.

(** [NowPlaying::extract_title_from_tag] *)
Definition extract_title_from_tag (tag : Tag) : string :=
  match tag_title tag with
  | Some t => t
  | None => "Untitled audio"
  end.

(** [NowPlaying::extract_artist_from_tag] *)
Definition extract_artist_from_tag (tag : Tag) : string :=
  match tag_artist tag with
  | Some a => a
  | None => "No artist"
  end.

(** [NowPlaying::new]: [parse_file(path).unwrap()], then the title and
    artist widgets show the extracted strings. *)
Definition NowPlaying_new (file : result TaggedFile ErrorKind) : outcome (string * string) :=
  match parse_file file with
  | RErr _ => Panic "called `Result::unwrap()` on an `Err` value"
  | ROk tag => Ok (extract_title_from_tag tag, extract_artist_from_tag tag)
  end.

(** Claim C4 fails: a file that reads fine and whose primary tag has an
    artist but no title makes [NowPlaying::new] panic instead of showing
    "Untitled audio". *)
Lemma missing_title_counterexample :
  NowPlaying_new (ROk (mkTaggedFile (Some (mkTag None (Some "Kensuke Ushio"%string))) None)) =
    Panic "called `Result::unwrap()` on an `Err` value" /\
  NowPlaying_new (ROk (mkTaggedFile (Some (mkTag None (Some "Kensuke Ushio"%string))) None)) <>
    Ok ("Untitled audio"%string, "Kensuke Ushio"%string).
Proof. split; [reflexivity|discriminate]. Qed.

(** Claim C4 (amended): for a file that reads successfully but whose tag
    (the primary one, else the first one) has no title or no artist,
    [parse_file] fails with [FakeTag] and [NowPlaying::new] panics on its
    [unwrap]; the fallback strings "Untitled audio" and "No artist" are what
    [extract_title_from_tag] and [extract_artist_from_tag] return for a tag
    without a title, resp. without an artist. *)
Theorem startup_rejects_missing_metadata (tf : TaggedFile) (tag : Tag)
  (Hsel : select_tag tf = Some tag)
  (Hmiss : tag_title tag = None \/ tag_artist tag = None) :
  parse_file (ROk tf) = RErr FakeTag /\
  NowPlaying_new (ROk tf) = Panic "called `Result::unwrap()` on an `Err` value" /\
  (forall a : option string, extract_title_from_tag (mkTag None a) = "Untitled audio"%string) /\
  (forall t : option string, extract_artist_from_tag (mkTag t None) = "No artist"%string).
Proof.
  assert (Hp : parse_file (ROk tf) = RErr FakeTag).
  { simpl. rewrite Hsel.
    destruct Hmiss as [H|H]; rewrite H; simpl; [reflexivity|].
    destruct (tag_title tag); reflexivity. }
  split; [exact Hp|]. split; [unfold NowPlaying_new; rewrite Hp; reflexivity|].
  split; intros; reflexivity.
Qed.

Lemma startup_rejects_missing_metadata_witness :
  (select_tag (mkTaggedFile None (Some (mkTag (Some "less than lovers"%string) None)))
     = Some (mkTag (Some "less than lovers"%string) None) /\
   (tag_title (mkTag (Some "less than lovers"%string) None) = None \/
    tag_artist (mkTag (Some "less than lovers"%string) None) = None)) /\
  parse_file (ROk (mkTaggedFile None (Some (mkTag (Some "less than lovers"%string) None))))
    = RErr FakeTag /\
  NowPlaying_new (ROk (mkTaggedFile None (Some (mkTag (Some "less than lovers"%string) None))))
    = Panic "called `Result::unwrap()` on an `Err` value" /\
  (forall a : option string, extract_title_from_tag (mkTag None a) = "Untitled audio"%string) /\
  (forall t : option string, extract_artist_from_tag (mkTag t None) = "No artist"%string).
Proof.
  assert (Hs : select_tag (mkTaggedFile None (Some (mkTag (Some "less than lovers"%string) None)))
               = Some (mkTag (Some "less than lovers"%string) None)) by reflexivity.
  assert (Hm : tag_title (mkTag (Some "less than lovers"%string) None) = None \/
               tag_artist (mkTag (Some "less than lovers"%string) None) = None)
    by (right; reflexivity).
  split; [split; [exact Hs|exact Hm]|].
  exact (startup_rejects_missing_metadata _ _ Hs Hm).
Defined.

(** ** [PlaybackButtons] (src/src/app/ui/playback_buttons.rs) *)
Module PlaybackButtons.

(** The icon labels, as their UTF-8 bytes: U+F04B (play) and U+F04C (pause). *)
Definition PLAY_BUTTON : string :=
  String (ascii_of_nat 239) (String (ascii_of_nat 129) (String (ascii_of_nat 139) EmptyString)).

Definition PAUSE_BUTTON : string :=
  String (ascii_of_nat 239) (String (ascii_of_nat 129) (String (ascii_of_nat 140) EmptyString)).

Definition SEEK_DURATION : Duration.t := Duration.from_secs 5.

(** [PlaybackButtons::handle_play_pause_click] *)
Definition handle_play_pause_click (current_label : string) : outcome (string * Message) :=
  if String.eqb current_label PAUSE_BUTTON then Ok (PLAY_BUTTON, Pause)
  else if String.eqb current_label PLAY_BUTTON then Ok (PAUSE_BUTTON, Play)
  else Panic "internal error: entered unreachable code".

(** [n] clicks on the play button (created with the label [PAUSE_BUTTON]),
    each followed by the worker handling the message the callback sent. *)
Fixpoint click_and_handle (n : nat) (label : string) (w : World) : outcome (string * World) :=
  match n with
  | O => Ok (label, w)
  | S n' =>
      r <- handle_play_pause_click label ;;
      let '(new_label, message) := r in
      r' <- handle_messages message w ;;
      let '(w', _) := r' in
      click_and_handle n' new_label w'
  end.

Lemma label_neq : String.eqb PLAY_BUTTON PAUSE_BUTTON = false.
Proof. reflexivity. Qed.

(** Extra: starting from the button's initial label [PAUSE_BUTTON] and a
    sink that plays, any number of clicks, each handled by the worker,
    never reaches [unreachable!()]; the label alternates (back to
    [PAUSE_BUTTON] after an even number of clicks) and the sink is paused
    exactly when the label shows the play icon; the position is untouched. *)
Theorem play_button_tracks_sink (n : nat) (s : Sink) (chan : list Duration.t)
  (alive : bool) (tr : list Event) :
  exists label w',
    click_and_handle n PAUSE_BUTTON
      (mkWorld (Some (new_playing_sink (sink_seek_ok s))) chan alive tr) = Ok (label, w') /\
    label = (if Nat.even n then PAUSE_BUTTON else PLAY_BUTTON) /\
    exists s', w_sink w' = Some s' /\ sink_paused s' = String.eqb label PLAY_BUTTON /\
               sink_pos s' = 0.
Proof.
  assert (Hgen : forall n b s chan tr,
    sink_paused s = b -> sink_pos s = 0 ->
    exists label w',
      click_and_handle n (if b then PLAY_BUTTON else PAUSE_BUTTON)
        (mkWorld (Some s) chan alive tr) = Ok (label, w') /\
      label = (if xorb b (negb (Nat.even n)) then PLAY_BUTTON else PAUSE_BUTTON) /\
      exists s', w_sink w' = Some s' /\ sink_paused s' = String.eqb label PLAY_BUTTON /\
                 sink_pos s' = 0).
  { clear. induction n as [|n IH]; intros b s chan tr Hb Hp.
    - do 2 eexists. split; [reflexivity|]. split; [destruct b; reflexivity|].
      exists s. split; [reflexivity|]. split; [|exact Hp].
      rewrite Hb. destruct b; reflexivity.
    - destruct b; cbn [click_and_handle].
      + destruct (IH false (sink_set_paused s false) chan (tr ++ [ELock; EPlay; EUnlock])
                    eq_refl Hp) as (label & w' & H1 & H2 & H3).
        exists label, w'. split.
        * rewrite <- H1. unfold handle_messages, with_sink, emit, put_sink; simpl.
          rewrite <- !app_assoc. reflexivity.
        * split; [|exact H3]. rewrite H2, PeanoNat.Nat.even_succ, <- PeanoNat.Nat.negb_even.
          destruct (Nat.even n); reflexivity.
      + destruct (IH true (sink_set_paused s true) chan (tr ++ [ELock; EPause; EUnlock])
                    eq_refl Hp) as (label & w' & H1 & H2 & H3).
        exists label, w'. split.
        * rewrite <- H1. unfold handle_messages, with_sink, emit, put_sink; simpl.
          rewrite <- !app_assoc. reflexivity.
        * split; [|exact H3]. rewrite H2, PeanoNat.Nat.even_succ, <- PeanoNat.Nat.negb_even.
          destruct (Nat.even n); reflexivity. }
  destruct (Hgen n false (new_playing_sink (sink_seek_ok s)) chan tr eq_refl eq_refl)
    as (label & w' & H1 & H2 & H3).
  exists label, w'. split; [exact H1|]. split; [|exact H3].
  rewrite H2. destruct (Nat.even n); reflexivity.
Qed.

End PlaybackButtons.

(** ** More of [ProgressBar] *)

Lemma duration_clamp_min (d len : Duration.t) :
  duration_clamp d Duration.ZERO len = Ok (N.min d len).
Proof.
  unfold duration_clamp, Duration.ZERO.
  replace (0 <=? len) with true by (symmetry; apply N.leb_le; lia). simpl.
  replace (d <? 0) with false by (symmetry; apply N.ltb_ge; lia).
  destruct (len <? d) eqn:H.
  - apply N.ltb_lt in H. f_equal. lia.
  - apply N.ltb_ge in H. f_equal. lia.
Qed.

Lemma drain_positions_last (len : Duration.t) (rx : list Duration.t) (last cur : Duration.t) :
  drain_positions len (rx ++ [last]) cur = Ok (N.min last len).
Proof.
  revert cur. induction rx as [|pos rx IH]; intros cur; simpl.
  - rewrite duration_clamp_min. reflexivity.
  - rewrite duration_clamp_min. simpl. apply IH.
Qed.

(** Extra: [ProgressBar::update] empties the position channel and keeps
    only the newest sample, clamped to the audio length (earlier samples,
    however large, leave no trace); the label and the progress value are
    then both drawn from that stored position. With nothing received, the
    stored position is kept. *)
Theorem update_keeps_newest (len : Duration.t) (rx : list Duration.t) (last cur : Duration.t)
  (label : string) (value : N) (sent : list Message) :
  update (mkProgressBar len (rx ++ [last]) cur label value sent) =
    Ok (mkProgressBar len [] (N.min last len) (format_duration (N.min last len))
          (Duration.as_millis (N.min last len)) sent) /\
  update (mkProgressBar len [] cur label value sent) =
    Ok (mkProgressBar len [] cur (format_duration cur) (Duration.as_millis cur) sent).
Proof.
  split; unfold update; simpl; [rewrite drain_positions_last|]; reflexivity.
Qed.

(** Extra: a click on the progress bar at [position_to_seek] leaves the
    shown position as it is and sends one command which, handled by the
    worker while the sink is at the shown position, issues exactly one
    seek, to [position_to_seek] itself (a [FastForward] of the distance
    when the click is ahead, a [Rewind] otherwise). *)
Theorem click_seeks_to_clicked_position (pb : ProgressBar) (position_to_seek : Duration.t)
  (s : Sink) (chan : list Duration.t) (alive : bool) (tr : list Event)
  (Hp : position_to_seek <= Duration.MAX) :
  current_audio_pos (on_click pb position_to_seek) = current_audio_pos pb /\
  exists m w',
    audio_sender (on_click pb position_to_seek) = audio_sender pb ++ [m] /\
    handle_messages m
      (mkWorld (Some (sink_set_pos s (current_audio_pos pb))) chan alive tr) = Ok (w', tt) /\
    seeks_of (w_trace w') = seeks_of tr ++ [(position_to_seek, sink_seek_ok s position_to_seek)].
Proof.
  split; [reflexivity|]. unfold on_click. simpl.
  set (cur := current_audio_pos pb).
  destruct (cur <? position_to_seek) eqn:Hlt.
  - apply N.ltb_lt in Hlt.
    assert (Hfit : sink_pos (sink_set_pos s cur) + (position_to_seek - cur) <= Duration.MAX)
      by (simpl; lia).
    exists (FastForward (position_to_seek - cur)).
    rewrite (handle_fast_forward_eq _ chan alive tr _ Hfit).
    replace (sink_pos (sink_set_pos s cur) + (position_to_seek - cur)) with position_to_seek
      by (simpl; lia).
    eexists. split; [reflexivity|]. split; [reflexivity|].
    simpl. rewrite !seeks_of_app. simpl.
    destruct (sink_seek_ok s position_to_seek), alive; reflexivity.
  - apply N.ltb_ge in Hlt.
    exists (Rewind (cur - position_to_seek)).
    rewrite handle_rewind_eq.
    replace (rewind_target (sink_pos (sink_set_pos s cur)) (cur - position_to_seek))
      with position_to_seek
      by (rewrite rewind_target_spec; simpl;
          replace (cur - position_to_seek <=? cur) with true by (symmetry; apply N.leb_le; lia);
          lia).
    eexists. split; [reflexivity|]. split; [reflexivity|].
    simpl. rewrite !seeks_of_app. simpl.
    destruct (sink_seek_ok s position_to_seek), alive; reflexivity.
Qed.

Lemma click_seeks_to_clicked_position_witness :
  Duration.from_secs 30 <= Duration.MAX /\
  current_audio_pos (on_click (ProgressBar_new (Duration.from_secs 60)) (Duration.from_secs 30))
    = current_audio_pos (ProgressBar_new (Duration.from_secs 60)) /\
  exists m w',
    audio_sender (on_click (ProgressBar_new (Duration.from_secs 60)) (Duration.from_secs 30))
      = audio_sender (ProgressBar_new (Duration.from_secs 60)) ++ [m] /\
    handle_messages m
      (mkWorld (Some (sink_set_pos (free_sink 0)
                        (current_audio_pos (ProgressBar_new (Duration.from_secs 60)))))
         [] true []) = Ok (w', tt) /\
    seeks_of (w_trace w') =
      seeks_of [] ++ [(Duration.from_secs 30, sink_seek_ok (free_sink 0) (Duration.from_secs 30))].
Proof.
  assert (H : Duration.from_secs 30 <= Duration.MAX) by (vm_compute; discriminate).
  split; [exact H|].
  exact (click_seeks_to_clicked_position (ProgressBar_new (Duration.from_secs 60))
           (Duration.from_secs 30) (free_sink 0) [] true [] H).
Defined.

(** Extra: [format_duration] only looks at whole seconds: a duration is
    shown as its seconds truncated, never rounded (59.999 s is "0:59"). *)
Theorem format_duration_truncates (d : Duration.t) :
  format_duration d = format_duration (Duration.from_secs (Duration.as_secs d)) /\
  format_duration 59999000000 = "0:59"%string.
Proof.
  split; [|reflexivity].
  unfold format_duration, Duration.as_secs, Duration.from_secs.
  rewrite N.div_mul by discriminate. reflexivity.
Qed.

(** ** More of the Playback Worker *)



(** Extra: when the default output device cannot be opened, the worker's
    first step panics with "open default audio stream"; the sink slot stays
    empty and no command is ever taken, whatever is sent. *)
Theorem no_device_no_playback (seek_ok : Duration.t -> bool) (sched : list Action) :
  let st := sys_run (sys_init false seek_ok) sched in
  w_sink (sys_world st) = None /\
  recvs_of (w_trace (sys_world st)) = [] /\
  (sys_worker st = WStarting \/ sys_worker st = WDead "open default audio stream").
Proof.
  cbv zeta.
  assert (Hgen : forall st, sys_device_ok st = false -> w_sink (sys_world st) = None ->
    recvs_of (w_trace (sys_world st)) = [] ->
    (sys_worker st = WStarting \/ sys_worker st = WDead "open default audio stream") ->
    let st' := sys_run st sched in
    w_sink (sys_world st') = None /\ recvs_of (w_trace (sys_world st')) = [] /\
    (sys_worker st' = WStarting \/ sys_worker st' = WDead "open default audio stream")).
  { induction sched as [|a sched IH]; intros st Hd Hs Hr Hw; cbv zeta; simpl;
      [auto|].
    destruct a as [p m|].
    - apply IH; simpl; auto.
    - destruct Hw as [Hw|Hw]; apply IH; simpl; rewrite ?Hw; unfold worker_start;
        rewrite ?Hd; simpl; auto. }
  apply Hgen; auto.
Qed.

(** ** More of [NowPlaying] *)

(** Extra: whenever [NowPlaying::new] succeeds, the file read fine and the
    title and artist it shows are exactly those of the selected tag (the
    primary one, else the first one): the fallback strings are never put
    in place of a missing field at start-up. *)
Theorem now_playing_shows_tag_fields (file : result TaggedFile ErrorKind) (t a : string)
  (H : NowPlaying_new file = Ok (t, a)) :
  exists tf tag,
    file = @ROk TaggedFile ErrorKind tf /\ select_tag tf = Some tag /\
    tag_title tag = Some t /\ tag_artist tag = Some a.
Proof.
  unfold NowPlaying_new in H.
  destruct file as [tf|e]; simpl in H; [|discriminate].
  destruct (select_tag tf) as [tag|] eqn:Hs; [|discriminate].
  destruct (tag_title tag) as [t0|] eqn:Ht; [|discriminate].
  destruct (tag_artist tag) as [a0|] eqn:Ha; [|discriminate].
  simpl in H. unfold extract_title_from_tag, extract_artist_from_tag in H.
  rewrite Ht, Ha in H. injection H as <- <-.
  exists tf, tag. auto.
Qed.

Lemma now_playing_shows_tag_fields_witness :
  NowPlaying_new (ROk (mkTaggedFile
      (Some (mkTag (Some "less than lovers"%string) (Some "Kensuke Ushio"%string)))
      (Some (mkTag None None))))
    = Ok ("less than lovers"%string, "Kensuke Ushio"%string) /\
  exists tf tag,
    ROk (mkTaggedFile
      (Some (mkTag (Some "less than lovers"%string) (Some "Kensuke Ushio"%string)))
      (Some (mkTag None None))) = @ROk TaggedFile ErrorKind tf /\ select_tag tf = Some tag /\
    tag_title tag = Some "less than lovers"%string /\
    tag_artist tag = Some "Kensuke Ushio"%string.
Proof.
  assert (H : NowPlaying_new (ROk (mkTaggedFile
      (Some (mkTag (Some "less than lovers"%string) (Some "Kensuke Ushio"%string)))
      (Some (mkTag None None))))
    = Ok ("less than lovers"%string, "Kensuke Ushio"%string)) by reflexivity.
  split; [exact H|]. exact (now_playing_shows_tag_fields _ _ _ H).
Defined.

(** lofty's picture types (those the code distinguishes) and MIME types. *)
Inductive PictureType : Type :=
| CoverFront
| CoverBack
| Artist
| OtherPicture.

Inductive MimeType : Type :=
| MimePng
| MimeJpeg
| MimeTiff
| MimeBmp
| MimeGif
| MimeUnknown (s : string).

Record Picture : Type := mkPicture {
  pic_type : PictureType;
  mime_type : option MimeType;
  pic_data : list Byte.byte
}.

(** The image handed to the cover frame. *)
Inductive SharedImage : Type :=
| DefaultCover                         (* SharedImage::load("assets/default.png") *)
| PngCover (data : list Byte.byte)     (* from PngImage::from_data *)
| JpegCover (data : list Byte.byte).   (* from JpegImage::from_data *)

Definition is_cover_front (t : PictureType) : bool :=
  match t with
  | CoverFront => true
  | _ => false
  end.

Section CoverImage.

(** Whether [assets/default.png] loads, and which byte strings the PNG and
    JPEG decoders accept; each failure is [unwrap]ped into a panic. *)
Variable default_cover_loads : bool.
Variable png_decodes jpeg_decodes : list Byte.byte -> bool.

Definition unwrap_err_msg : string := "called `Result::unwrap()` on an `Err` value".

Definition load_default_cover : outcome SharedImage :=
  if default_cover_loads then Ok DefaultCover else Panic unwrap_err_msg.

(** The [match] on the chosen cover's MIME type. *)
Definition cover_from_picture (cover : Picture) : outcome SharedImage :=
  match mime_type cover with
  | Some MimePng =>
      if png_decodes (pic_data cover) then Ok (PngCover (pic_data cover))
      else Panic unwrap_err_msg
  | Some MimeJpeg =>
      if jpeg_decodes (pic_data cover) then Ok (JpegCover (pic_data cover))
      else Panic unwrap_err_msg
  | _ => load_default_cover
  end.

(** [NowPlaying::extract_cover_image_from_tag], given [tag.pictures()]. *)
Definition extract_cover_image_from_tag (pictures : list Picture) : outcome SharedImage :=
  if Nat.eqb (length pictures) 0 then load_default_cover
  else
    match find (fun picture => is_cover_front (pic_type picture)) pictures with
    | Some cover => cover_from_picture cover
    | None => load_default_cover
    end.

End CoverImage.

(** Extra: the cover shown is decided by the first front-cover picture
    alone: pictures of other types, and front covers after the first, never
    matter; with no front cover at all (or no picture) the default cover is
    loaded, and so it is when the first front cover's MIME type is missing
    or is neither PNG nor JPEG. *)
Theorem cover_from_first_front (default_cover_loads : bool)
  (png_decodes jpeg_decodes : list Byte.byte -> bool) (pictures : list Picture) :
  extract_cover_image_from_tag default_cover_loads png_decodes jpeg_decodes pictures =
    match filter (fun p => is_cover_front (pic_type p)) pictures with
    | [] => load_default_cover default_cover_loads
    | cover :: _ =>
        match mime_type cover with
        | Some MimePng | Some MimeJpeg =>
            cover_from_picture default_cover_loads png_decodes jpeg_decodes cover
        | _ => load_default_cover default_cover_loads
        end
    end.
Proof.
  unfold extract_cover_image_from_tag.
  assert (Hfind : forall l : list Picture,
    find (fun picture => is_cover_front (pic_type picture)) l =
    match filter (fun p => is_cover_front (pic_type p)) l with
    | [] => None
    | c :: _ => Some c
    end).
  { induction l as [|p l IH]; simpl; [reflexivity|].
    destruct (is_cover_front (pic_type p)); [reflexivity|exact IH]. }
  rewrite Hfind.
  destruct pictures as [|p0 rest]; [reflexivity|]. cbn [length Nat.eqb].
  destruct (filter (fun p => is_cover_front (pic_type p)) (p0 :: rest)) as [|c l];
    [reflexivity|].
  unfold cover_from_picture.
  destruct (mime_type c) as [[| | | | |u]|]; reflexivity.
Qed.

(** Extra: a front cover tagged PNG (resp. JPEG) whose bytes the decoder
    refuses makes [extract_cover_image_from_tag] panic rather than fall back
    to the default cover, whatever pictures come before or after it. *)
Theorem undecodable_cover_panics (default_cover_loads : bool)
  (png_decodes jpeg_decodes : list Byte.byte -> bool)
  (before after : list Picture) (cover : Picture)
  (Hbefore : forall p, In p before -> is_cover_front (pic_type p) = false)
  (Hfront : pic_type cover = CoverFront)
  (Hbad : match mime_type cover with
          | Some MimePng => png_decodes (pic_data cover) = false
          | Some MimeJpeg => jpeg_decodes (pic_data cover) = false
          | _ => False
          end) :
  extract_cover_image_from_tag default_cover_loads png_decodes jpeg_decodes
    (before ++ cover :: after) = Panic unwrap_err_msg.
Proof.
  rewrite cover_from_first_front.
  assert (Hf : filter (fun p => is_cover_front (pic_type p)) (before ++ cover :: after) =
               cover :: filter (fun p => is_cover_front (pic_type p)) after).
  { induction before as [|b bs IH]; simpl.
    - rewrite Hfront. reflexivity.
    - rewrite (Hbefore b (or_introl eq_refl)).
      apply IH. intros p Hp. apply Hbefore. right. exact Hp. }
  rewrite Hf. unfold cover_from_picture.
  destruct (mime_type cover) as [[| | | | |u]|]; try contradiction;
    rewrite Hbad; reflexivity.
Qed.

Lemma undecodable_cover_panics_witness :
  extract_cover_image_from_tag true (fun _ => false) (fun _ => true)
    [mkPicture Artist (Some MimeJpeg) [Byte.x00];
     mkPicture CoverFront (Some MimePng) [Byte.x89; Byte.x50];
     mkPicture CoverFront (Some MimeJpeg) [Byte.xff]]
  = Panic unwrap_err_msg.
Proof.
  apply (undecodable_cover_panics true (fun _ => false) (fun _ => true)
           [mkPicture Artist (Some MimeJpeg) [Byte.x00]]
           [mkPicture CoverFront (Some MimeJpeg) [Byte.xff]]
           (mkPicture CoverFront (Some MimePng) [Byte.x89; Byte.x50])).
  - intros p Hp. simpl in Hp. destruct Hp as [<-|[]]. reflexivity.
  - reflexivity.
  - reflexivity.
Defined.

From Stdlib Require Import ZArith.

(** ** Layout of the Now Playing widgets (i32 arithmetic, debug build) *)

Module Layout.

Local Open Scope Z_scope.

Definition i32_min : Z := - 2 ^ 31.
Definition i32_max : Z := 2 ^ 31 - 1.

Definition in_i32 (z : Z) : bool := (i32_min <=? z) && (z <=? i32_max).

(** i32 [+] and [-] panic on overflow; [/ 2] truncates toward zero and
    cannot overflow. *)
Definition i32_add (a b : Z) : outcome Z :=
  if in_i32 (a + b) then Ok (a + b) else Panic "attempt to add with overflow".

Definition i32_sub (a b : Z) : outcome Z :=
  if in_i32 (a - b) then Ok (a - b) else Panic "attempt to subtract with overflow".

Definition i32_div2 (a : Z) : Z := Z.quot a 2.

(** [NowPlaying::text_center_x_of_widget], given the measured text width
    and the widget's [x()] and [w()]. *)
Definition text_center_x_of_widget (cover_x cover_w text_width : Z) : outcome Z :=
  d <- i32_sub cover_w text_width ;;
  i32_add cover_x (i32_div2 d).

End Layout.

(** Extra: when the i32 arithmetic does not overflow,
    [text_center_x_of_widget] centres the text over the widget up to one
    pixel: the left margin minus the right margin is minus the remainder of
    [cover_w - text_width] by 2 (so it is 0 for an even difference, and the
    left margin is the smaller one for an odd positive one); this holds also
    when the text is wider than the widget and both margins are negative. *)
Theorem text_centered_over_widget (cover_x cover_w text_width : Z)
  (Hsub : Layout.in_i32 (cover_w - text_width) = true)
  (Hadd : Layout.in_i32 (cover_x + Z.quot (cover_w - text_width) 2) = true) :
  exists x,
    Layout.text_center_x_of_widget cover_x cover_w text_width = Ok x /\
    ((x - cover_x) - ((cover_x + cover_w) - (x + text_width)) =
       - Z.rem (cover_w - text_width) 2)%Z /\
    (Z.abs ((x - cover_x) - ((cover_x + cover_w) - (x + text_width))) <= 1)%Z.
Proof.
  unfold Layout.text_center_x_of_widget, Layout.i32_sub, Layout.i32_add, Layout.i32_div2.
  rewrite Hsub. simpl. rewrite Hadd.
  exists (cover_x + Z.quot (cover_w - text_width) 2)%Z. split; [reflexivity|].
  pose proof (Z.quot_rem (cover_w - text_width) 2 ltac:(lia)) as Hqr.
  pose proof (Z.rem_bound_abs (cover_w - text_width) 2 ltac:(lia)) as Hb.
  split; [lia|].
  replace ((cover_x + Z.quot (cover_w - text_width) 2 - cover_x) -
           (cover_x + cover_w - (cover_x + Z.quot (cover_w - text_width) 2 + text_width)))%Z
    with (- Z.rem (cover_w - text_width) 2)%Z by lia.
  rewrite Z.abs_opp. simpl in Hb. lia.
Qed.

(** A title 37 pixels wide over the 100-pixel cover frame at x = 150 that
    [create_cover_widget] builds. *)
Lemma text_centered_over_widget_witness :
  Layout.text_center_x_of_widget 150 100 37 = Ok 181%Z /\
  exists x,
    Layout.text_center_x_of_widget 150 100 37 = Ok x /\
    ((x - 150) - ((150 + 100) - (x + 37)) = - Z.rem (100 - 37) 2)%Z /\
    (Z.abs ((x - 150) - ((150 + 100) - (x + 37))) <= 1)%Z.
Proof.
  split; [reflexivity|].
  apply text_centered_over_widget; reflexivity.
Defined.
